(** * CWebKit capability shims

    The repository consists of three C headers,

      Sources/CWebKit/include/JavaScriptCore.h
      Sources/CWebKit/include/WPEWebKit.h
      Sources/CWebKit/include/WebKitGTK.h

    made only of preprocessor directives.  This development gives each
    directive that occurs in them a meaning as a transformer of the
    translation unit being preprocessed, writes the three headers with
    those combinators, directive by directive, and proves what including
    a header does to the translation unit. *)

From stdpp Require Import base decidable option list strings gmap.

Local Open Scope string_scope.
Local Open Scope Z_scope.
Local Open Scope list_scope.

(** ** The preprocessor state *)

Module Cpp.

(** Replacement list of an object-like macro.  The headers only define
    macros with an empty replacement list (the include guards) or with a
    single integer constant (the capability macros). *)
Inductive body : Type :=
  | Empty
  | Int (z : Z).

#[global] Instance body_eq_dec : EqDecision body.
Proof. solve_decision. Defined.

(** Diagnostics a conforming preprocessor has to give for the directives
    used here. *)
Inductive diagnostic : Type :=
  | FileNotFound (h : string)        (* #include <h>, h not on the search path *)
  | MacroRedefined (m : string)      (* #define m with another replacement list *)
  | BadCondition.                    (* __has_include used where unsupported *)

(** What the build supplies: whether the compiler knows the
    [__has_include] operator, and which headers the angle-bracket search
    path resolves. *)
Record env : Type := Env {
  has_include_supported : bool;
  available : string -> bool
}.

(** A translation unit while it is preprocessed: the macro table, the
    system headers whose text has been brought in (in order), and the
    non-fatal diagnostics given so far. *)
Record tu : Type := TU {
  macros : gmap string body;
  included : list string;
  diags : list diagnostic
}.

Definition fresh : tu := TU ∅ [] [].

(** Preprocessing either goes through, or stops at a fatal diagnostic;
    the state reached when it stopped is kept. *)
Inductive outcome : Type :=
  | Ok (t : tu)
  | Fatal (d : diagnostic) (t : tu).

Definition state_of (o : outcome) : tu :=
  match o with Ok t => t | Fatal _ t => t end.

Definition completed (o : outcome) : bool :=
  match o with Ok _ => true | Fatal _ _ => false end.

(** A group of directives. *)
Definition pp : Type := env -> tu -> outcome.

Definition skip : pp := fun _ t => Ok t.

Definition seq (a b : pp) : pp := fun e t =>
  match a e t with
  | Ok t' => b e t'
  | Fatal d t' => Fatal d t'
  end.

(** [#include <h>]: the header is looked up on the search path; a header
    that is not there ends the translation ("fatal error: h: No such file
    or directory").  The text of a system header is not part of this
    repository: including one is recorded by its name. *)
Definition add_header (h : string) (t : tu) : tu :=
  TU (macros t) (included t ++ [h]) (diags t).

Definition include (h : string) : pp := fun e t =>
  if available e h then Ok (add_header h t) else Fatal (FileNotFound h) t.

(** [#define m b]: defining a macro again with the same replacement list
    is allowed, with another one it is diagnosed and the new definition
    is the one in force. *)
Definition set_macro (m : string) (b : body) (t : tu) : tu :=
  match macros t !! m with
  | None => TU (<[m := b]> (macros t)) (included t) (diags t)
  | Some b' =>
      if decide (b' = b) then t
      else TU (<[m := b]> (macros t)) (included t)
              (diags t ++ [MacroRedefined m])
  end.

Definition define (m : string) (b : body) : pp := fun _ t =>
  Ok (set_macro m b t).

(** [defined m], as [#ifdef] and [#ifndef] test it.  [__has_include] is
    not in the macro table: it counts as defined exactly on the compilers
    that implement the operator. *)
Definition is_defined (e : env) (t : tu) (m : string) : bool :=
  if String.eqb m "__has_include" then has_include_supported e
  else bool_decide (is_Some (macros t !! m)).

(** [#ifdef m] a [#else] b [#endif] *)
Definition ifdef (m : string) (a b : pp) : pp := fun e t =>
  if is_defined e t m then a e t else b e t.

(** [#ifndef m] a [#endif] *)
Definition ifndef (m : string) (a : pp) : pp := fun e t =>
  if is_defined e t m then Ok t else a e t.

(** The controlling expressions of [#if] and [#elif].  The headers use
    one form only, [__has_include(<h>)]; where the operator is not
    implemented the expression does not parse. *)
Definition cond : Type := env -> option bool.

Definition has_include (h : string) : cond := fun e =>
  if has_include_supported e then Some (available e h) else None.

(** [#if c] a [#else] b [#endif].  [#elif c'] is an [#if c'] in the
    [#else] group: its expression is evaluated only when [c] was false. *)
Definition if_ (c : cond) (a b : pp) : pp := fun e t =>
  match c e with
  | Some true => a e t
  | Some false => b e t
  | None => Fatal BadCondition t
  end.

End Cpp.

Import Cpp.

Declare Scope pp_scope.
Delimit Scope pp_scope with pp.
Bind Scope pp_scope with pp.
Notation "a ;; b" := (seq a b)
  (at level 100, b at level 200, right associativity) : pp_scope.

(** ** The three headers *)

(** Sources/CWebKit/include/JavaScriptCore.h, lines 17-35 *)
Definition JavaScriptCore_h : pp :=
  ifndef "CWebKit_JavaScriptCore_h" (
    define "CWebKit_JavaScriptCore_h" Empty ;;
    ifdef "__has_include" (
      if_ (has_include "JavaScriptCore/JavaScript.h") (
        include "JavaScriptCore/JavaScript.h" ;;
        define "CWEBKIT_HAS_JAVASCRIPTCORE" (Int 1)
      ) (* #elif *) (if_ (has_include "jsc/jsc.h") (
        include "jsc/jsc.h" ;;
        define "CWEBKIT_HAS_JAVASCRIPTCORE" (Int 1)
      ) (* #else *) (
        define "CWEBKIT_HAS_JAVASCRIPTCORE" (Int 0)
      ))
    ) (* #else *) (
      define "CWEBKIT_HAS_JAVASCRIPTCORE" (Int 0)
    )
  )%pp.

(** Sources/CWebKit/include/WPEWebKit.h, lines 25-47 *)
Definition WPEWebKit_h : pp :=
  ifndef "CWebKit_WPEWebKit_h" (
    define "CWebKit_WPEWebKit_h" Empty ;;
    ifdef "__has_include" (
      if_ (has_include "wpe/webkit.h") (
        include "wpe/webkit.h" ;;
        define "CWEBKIT_HAS_WPE" (Int 1)
      ) (* #else *) (
        define "CWEBKIT_HAS_WPE" (Int 0)
      )
    ) (* #else *) (
      define "CWEBKIT_HAS_WPE" (Int 0)
    ) ;;
    (* GLib is required for WPE WebKit *)
    ifdef "__has_include" (
      if_ (has_include "glib.h") (
        include "glib.h" ;;
        include "gio/gio.h"
      ) skip
    ) skip
  )%pp.

(** Sources/CWebKit/include/WebKitGTK.h, lines 24-39 *)
Definition WebKitGTK_h : pp :=
  ifndef "CWebKit_WebKitGTK_h" (
    define "CWebKit_WebKitGTK_h" Empty ;;
    ifdef "__has_include" (
      if_ (has_include "webkit2/webkit2.h") (
        include "webkit2/webkit2.h" ;;
        include "gtk/gtk.h" ;;
        define "CWEBKIT_HAS_GTK" (Int 1)
      ) (* #else *) (
        define "CWEBKIT_HAS_GTK" (Int 0)
      )
    ) (* #else *) (
      define "CWEBKIT_HAS_GTK" (Int 0)
    )
  )%pp.

(** ** Vocabulary for the three headers *)

Inductive shim : Type := JavaScriptCore | WPEWebKit | WebKitGTK.

#[global] Instance shim_eq_dec : EqDecision shim.
Proof. solve_decision. Defined.

(** [#include "X.h"] of one of the three headers. *)
Definition include_shim (s : shim) : pp :=
  match s with
  | JavaScriptCore => JavaScriptCore_h
  | WPEWebKit => WPEWebKit_h
  | WebKitGTK => WebKitGTK_h
  end.

(** The include guard of each header (line 17/18, 25/26, 24/25). *)
Definition guard (s : shim) : string :=
  match s with
  | JavaScriptCore => "CWebKit_JavaScriptCore_h"
  | WPEWebKit => "CWebKit_WPEWebKit_h"
  | WebKitGTK => "CWebKit_WebKitGTK_h"
  end.

(** The capability macro each header defines. *)
Definition capability (s : shim) : string :=
  match s with
  | JavaScriptCore => "CWEBKIT_HAS_JAVASCRIPTCORE"
  | WPEWebKit => "CWEBKIT_HAS_WPE"
  | WebKitGTK => "CWEBKIT_HAS_GTK"
  end.

(** The native header(s) whose probe decides the capability macro. *)
Definition probed (s : shim) : list string :=
  match s with
  | JavaScriptCore => ["JavaScriptCore/JavaScript.h"; "jsc/jsc.h"]
  | WPEWebKit => ["wpe/webkit.h"]
  | WebKitGTK => ["webkit2/webkit2.h"]
  end.

(** The GLib/GTK headers a header includes besides its native header. *)
Definition dependencies (s : shim) : list string :=
  match s with
  | JavaScriptCore => []
  | WPEWebKit => ["glib.h"; "gio/gio.h"]
  | WebKitGTK => ["gtk/gtk.h"]
  end.

(** Every header name that occurs in a header of the repository. *)
Definition headers_of (s : shim) : list string := probed s ++ dependencies s.

(** A header is found when the [__has_include] probe locates it. *)
Definition found (e : env) (h : string) : bool :=
  match has_include h e with
  | Some true => true
  | _ => false
  end.

(** The probe of a header finds (one of) its native header(s). *)
Definition target_found (e : env) (s : shim) : bool :=
  existsb (found e) (probed s).

(** Value of a macro in a translation unit, [None] when undefined. *)
Definition macro_value (m : string) (t : tu) : option body := macros t !! m.

(** The declarations of header [h] are visible in [t]. *)
Definition visible (h : string) (t : tu) : Prop := h ∈ included t.

(** A search path given by the list of headers it resolves. *)
Definition path (hs : list string) : string -> bool :=
  fun h => bool_decide (h ∈ hs).

(** The translation unit has not seen header [s] yet: neither its include
    guard nor its capability macro is defined. *)
Definition not_yet_included (s : shim) (t : tu) : Prop :=
  macro_value (guard s) t = None /\ macro_value (capability s) t = None.

(** What a client of a header can observe after including it first thing
    in a translation unit: the capability macro and the system headers
    brought in. *)
Definition observable (s : shim) (e : env) : option body * list string :=
  let t := state_of (include_shim s e fresh) in
  (macro_value (capability s) t, included t).

(** [n] successive inclusions. *)
Fixpoint times (n : nat) (a : pp) : pp :=
  match n with
  | O => skip
  | S n' => (a ;; times n' a)%pp
  end.

(** State right after the two guard lines [#ifndef G] / [#define G]. *)
Definition after_guard (s : shim) (t : tu) : tu := set_macro (guard s) Empty t.

(** State after the first conditional block of WPEWebKit.h (lines 28-37),
    before the GLib block. *)
Definition WPE_probe_state (e : env) (t : tu) : tu :=
  if found e "wpe/webkit.h"
  then set_macro "CWEBKIT_HAS_WPE" (Int 1)
         (add_header "wpe/webkit.h" (after_guard WPEWebKit t))
  else set_macro "CWEBKIT_HAS_WPE" (Int 0) (after_guard WPEWebKit t).

(** The pairs (capability macro, headers brought in) with which a first
    inclusion can complete. *)
Definition outcomes_of (s : shim) : list (option body * list string) :=
  match s with
  | JavaScriptCore =>
      [ (Some (Int 1), ["JavaScriptCore/JavaScript.h"]);
        (Some (Int 1), ["jsc/jsc.h"]);
        (Some (Int 0), []) ]
  | WPEWebKit =>
      [ (Some (Int 1), ["wpe/webkit.h"; "glib.h"; "gio/gio.h"]);
        (Some (Int 1), ["wpe/webkit.h"]);
        (Some (Int 0), ["glib.h"; "gio/gio.h"]);
        (Some (Int 0), []) ]
  | WebKitGTK =>
      [ (Some (Int 1), ["webkit2/webkit2.h"; "gtk/gtk.h"]);
        (Some (Int 0), []) ]
  end.

(** The system headers a first inclusion brings in, in order, up to the
    point where it completes or stops. *)
Definition brought_in (s : shim) (e : env) : list string :=
  match s with
  | JavaScriptCore =>
      if found e "JavaScriptCore/JavaScript.h" then ["JavaScriptCore/JavaScript.h"]
      else if found e "jsc/jsc.h" then ["jsc/jsc.h"]
      else []
  | WPEWebKit =>
      (if found e "wpe/webkit.h" then ["wpe/webkit.h"] else [])
      ++ (if found e "glib.h"
          then "glib.h" :: (if available e "gio/gio.h" then ["gio/gio.h"] else [])
          else [])
  | WebKitGTK =>
      if found e "webkit2/webkit2.h"
      then "webkit2/webkit2.h" :: (if available e "gtk/gtk.h" then ["gtk/gtk.h"] else [])
      else []
  end.

(** Build configurations used as test inputs below: a compiler with
    [__has_include] and the listed headers on its search path. *)
Definition with_headers (hs : list string) : env := Env true (path hs).

Definition only_webkit2 : env := with_headers ["webkit2/webkit2.h"].
Definition webkit2_and_gtk : env := with_headers ["webkit2/webkit2.h"; "gtk/gtk.h"].
Definition only_wpe : env := with_headers ["wpe/webkit.h"].
Definition wpe_and_glib : env :=
  with_headers ["wpe/webkit.h"; "glib.h"; "gio/gio.h"].
Definition only_glib : env := with_headers ["glib.h"; "gio/gio.h"].
Definition glib_without_gio : env := with_headers ["glib.h"].
Definition wpe_glib_without_gio : env := with_headers ["wpe/webkit.h"; "glib.h"].
Definition only_JavaScript_h : env := with_headers ["JavaScriptCore/JavaScript.h"].
Definition only_jsc_h : env := with_headers ["jsc/jsc.h"].
Definition both_jsc : env :=
  with_headers ["JavaScriptCore/JavaScript.h"; "jsc/jsc.h"].
Definition no_headers : env := with_headers [].
Definition gtk_among_others : env :=
  with_headers ["webkit2/webkit2.h"; "gtk/gtk.h"; "wpe/webkit.h"; "jsc/jsc.h"].
(** Every header installed, but a compiler without [__has_include]. *)
Definition old_compiler : env := Env false (fun _ => true).

(** A translation unit that includes several of the three headers, one
    after the other ([#include "A.h"] / [#include "B.h"] / ...). *)
Fixpoint include_all (ss : list shim) : pp :=
  match ss with
  | [] => skip
  | s :: ss' => (include_shim s ;; include_all ss')%pp
  end.

(** The macro table tells the truth about the probes: each of the three
    headers either has not been seen yet, or its guard is defined and its
    capability macro records whether its target header was found. *)
Definition consistent (e : env) (t : tu) : Prop :=
  forall s,
    not_yet_included s t
    \/ (is_Some (macro_value (guard s) t)
        /\ macro_value (capability s) t
           = Some (Int (if target_found e s then 1 else 0))).

(** One search path resolves every header another one resolves. *)
Definition path_included (e1 e2 : env) : Prop :=
  forall h, available e1 h = true -> available e2 h = true.

(** The value the [#define] lines give the capability macro: 1 in the
    branches taken when a probe succeeds, 0 in the [#else] branches. *)
Definition probe_value (s : shim) (e : env) : body :=
  Int (if target_found e s then 1 else 0).

(** A first inclusion reaches a [#define] of the capability macro.  It
    always does, except in WebKitGTK.h when the [#include <gtk/gtk.h>]
    of line 30, which precedes the [#define] of line 31, fails. *)
Definition defines_capability (s : shim) (e : env) : bool :=
  match s with
  | WebKitGTK => negb (found e "webkit2/webkit2.h") || available e "gtk/gtk.h"
  | _ => true
  end.

(** A translation unit that starts with macro [m] defined, as with
    [-Dm=b] on the command line. *)
Definition predefined (m : string) (b : body) : tu := TU {[ m := b ]} [] [].

(** ** Facts about single directives *)

Section Directives.

Context (m : string) (b : body) (t : tu).

Lemma set_macro_value : macro_value m (set_macro m b t) = Some b.
Proof.
  unfold macro_value, set_macro.
  destruct (macros t !! m) as [b'|] eqn:E; simpl.
  - destruct (decide (b' = b)) as [->|]; simpl; [done|apply lookup_insert_eq].
  - apply lookup_insert_eq.
Qed.

Lemma set_macro_other (m' : string) :
  m ≠ m' -> macro_value m' (set_macro m b t) = macro_value m' t.
Proof.
  intros Hne. unfold macro_value, set_macro.
  destruct (macros t !! m) as [b'|]; simpl.
  - destruct (decide (b' = b)); simpl; [done|by apply lookup_insert_ne].
  - by apply lookup_insert_ne.
Qed.

Lemma set_macro_included : included (set_macro m b t) = included t.
Proof.
  unfold set_macro. destruct (macros t !! m) as [b'|]; [|done].
  by destruct (decide (b' = b)).
Qed.

Lemma set_macro_diags_new :
  macro_value m t = None -> diags (set_macro m b t) = diags t.
Proof. unfold macro_value, set_macro. by intros ->. Qed.

Lemma add_header_value (h : string) :
  macro_value m (add_header h t) = macro_value m t.
Proof. done. Qed.

Lemma add_header_included (h : string) :
  included (add_header h t) = included t ++ [h].
Proof. done. Qed.

Lemma add_header_diags (h : string) : diags (add_header h t) = diags t.
Proof. done. Qed.

End Directives.

Lemma is_defined_guard (s : shim) (e : env) (t : tu) :
  is_defined e t (guard s) = bool_decide (is_Some (macro_value (guard s) t)).
Proof. by destruct s. Qed.

Lemma guard_undefined (s : shim) (e : env) (t : tu) :
  macro_value (guard s) t = None -> is_defined e t (guard s) = false.
Proof.
  intros H. rewrite is_defined_guard, H. apply bool_decide_eq_false.
  by intros [? ?].
Qed.

Lemma guard_undefined_inv (s : shim) (e : env) (t : tu) :
  is_defined e t (guard s) = false -> macro_value (guard s) t = None.
Proof.
  rewrite is_defined_guard. intros Hd. apply bool_decide_eq_false in Hd.
  destruct (macro_value (guard s) t) eqn:E; [|done].
  exfalso. apply Hd. by eexists.
Qed.

Lemma guard_defined (s : shim) (e : env) (t : tu) (b : body) :
  macro_value (guard s) t = Some b -> is_defined e t (guard s) = true.
Proof.
  intros H. rewrite is_defined_guard, H. by apply bool_decide_eq_true.
Qed.

Lemma found_spec (e : env) (h : string) :
  found e h = has_include_supported e && available e h.
Proof. unfold found, has_include. by destruct (has_include_supported e), (available e h). Qed.

(** ** What each header does on first inclusion *)

Section FirstInclusion.

Context (e : env) (t : tu).

Lemma JavaScriptCore_run :
  macro_value (guard JavaScriptCore) t = None ->
  JavaScriptCore_h e t =
  Ok (if found e "JavaScriptCore/JavaScript.h"
      then set_macro "CWEBKIT_HAS_JAVASCRIPTCORE" (Int 1)
             (add_header "JavaScriptCore/JavaScript.h" (after_guard JavaScriptCore t))
      else if found e "jsc/jsc.h"
      then set_macro "CWEBKIT_HAS_JAVASCRIPTCORE" (Int 1)
             (add_header "jsc/jsc.h" (after_guard JavaScriptCore t))
      else set_macro "CWEBKIT_HAS_JAVASCRIPTCORE" (Int 0) (after_guard JavaScriptCore t)).
Proof.
  intros Hg. unfold JavaScriptCore_h, ifndef.
  pose proof (guard_undefined JavaScriptCore e t Hg) as Hd; cbn [guard] in Hd; rewrite Hd.
  rewrite !found_spec.
  unfold seq, define, ifdef, if_, has_include, include, is_defined; simpl.
  destruct (has_include_supported e); simpl; [|done].
  destruct (available e "JavaScriptCore/JavaScript.h"); simpl; [done|].
  by destruct (available e "jsc/jsc.h").
Qed.

Lemma WPEWebKit_run :
  macro_value (guard WPEWebKit) t = None ->
  WPEWebKit_h e t =
  if found e "glib.h"
  then if available e "gio/gio.h"
       then Ok (add_header "gio/gio.h" (add_header "glib.h" (WPE_probe_state e t)))
       else Fatal (FileNotFound "gio/gio.h") (add_header "glib.h" (WPE_probe_state e t))
  else Ok (WPE_probe_state e t).
Proof.
  intros Hg. unfold WPEWebKit_h, ifndef, WPE_probe_state.
  pose proof (guard_undefined WPEWebKit e t Hg) as Hd; cbn [guard] in Hd; rewrite Hd.
  rewrite !found_spec.
  unfold seq, define, ifdef, if_, has_include, include, is_defined, skip; simpl.
  destruct (has_include_supported e); simpl; [|done].
  destruct (available e "wpe/webkit.h"); simpl;
    destruct (available e "glib.h"); simpl; try done;
    by destruct (available e "gio/gio.h").
Qed.

Lemma WebKitGTK_run :
  macro_value (guard WebKitGTK) t = None ->
  WebKitGTK_h e t =
  if found e "webkit2/webkit2.h"
  then if available e "gtk/gtk.h"
       then Ok (set_macro "CWEBKIT_HAS_GTK" (Int 1)
                  (add_header "gtk/gtk.h"
                     (add_header "webkit2/webkit2.h" (after_guard WebKitGTK t))))
       else Fatal (FileNotFound "gtk/gtk.h")
              (add_header "webkit2/webkit2.h" (after_guard WebKitGTK t))
  else Ok (set_macro "CWEBKIT_HAS_GTK" (Int 0) (after_guard WebKitGTK t)).
Proof.
  intros Hg. unfold WebKitGTK_h, ifndef.
  pose proof (guard_undefined WebKitGTK e t Hg) as Hd; cbn [guard] in Hd; rewrite Hd.
  rewrite !found_spec.
  unfold seq, define, ifdef, if_, has_include, include, is_defined; simpl.
  destruct (has_include_supported e); simpl; [|done].
  destruct (available e "webkit2/webkit2.h"); simpl; [|done].
  by destruct (available e "gtk/gtk.h").
Qed.

End FirstInclusion.

(** ** Re-inclusion *)

Ltac macro_simpl :=
  repeat first
    [ rewrite add_header_value
    | rewrite set_macro_value
    | rewrite set_macro_other by done
    | rewrite set_macro_included
    | rewrite add_header_included ].

(** Two lists that extend the same list differently are different. *)
Ltac absurd_app :=
  match goal with
  | H : ?l ++ _ = ?l ++ _ |- _ => apply app_inv_head in H; discriminate H
  | H : ?l = ?l ++ _ |- _ =>
      rewrite <- (app_nil_r l) in H at 1; apply app_inv_head in H;
      discriminate H
  | H : ?l ++ _ = ?l |- _ =>
      symmetry in H; rewrite <- (app_nil_r l) in H at 1;
      apply app_inv_head in H; discriminate H
  end.

Lemma include_shim_guarded (s : shim) (e : env) (t : tu) :
  is_defined e t (guard s) = true -> include_shim s e t = Ok t.
Proof.
  intros Hd. destruct s; cbn [guard] in Hd;
    unfold include_shim, JavaScriptCore_h, WPEWebKit_h, WebKitGTK_h, ifndef;
    by rewrite Hd.
Qed.

Lemma guard_set_after (s : shim) (e : env) (t : tu) :
  macro_value (guard s) t = None ->
  macro_value (guard s) (state_of (include_shim s e t)) = Some Empty.
Proof.
  intros Hg. destruct s; cbn [include_shim].
  - rewrite JavaScriptCore_run by done. unfold after_guard. cbn [state_of guard].
    destruct (found e "JavaScriptCore/JavaScript.h"); [|destruct (found e "jsc/jsc.h")];
      by macro_simpl.
  - rewrite WPEWebKit_run by done. unfold WPE_probe_state, after_guard. cbn [guard].
    destruct (found e "glib.h"); [destruct (available e "gio/gio.h")|];
      cbn [state_of]; destruct (found e "wpe/webkit.h"); by macro_simpl.
  - rewrite WebKitGTK_run by done. unfold after_guard. cbn [guard].
    destruct (found e "webkit2/webkit2.h"); [destruct (available e "gtk/gtk.h")|];
      cbn [state_of]; by macro_simpl.
Qed.

Lemma include_shim_again (s : shim) (e : env) (t t' : tu) :
  include_shim s e t = Ok t' -> include_shim s e t' = Ok t'.
Proof.
  intros Hrun. destruct (is_defined e t (guard s)) eqn:Hd.
  - rewrite include_shim_guarded in Hrun by done. simplify_eq.
    by apply include_shim_guarded.
  - pose proof (guard_undefined_inv s e t Hd) as Hg.
    apply include_shim_guarded.
    pose proof (guard_set_after s e t Hg) as Hset.
    rewrite Hrun in Hset. cbn [state_of] in Hset.
    by eapply guard_defined.
Qed.

Lemma times_include_shim (n : nat) (s : shim) (e : env) (t : tu) :
  times (S n) (include_shim s) e t = include_shim s e t.
Proof.
  revert t. induction n as [|n IH]; intros t.
  - cbn [times]. unfold seq, skip. by destruct (include_shim s e t).
  - change (times (S (S n)) (include_shim s))
      with (include_shim s ;; times (S n) (include_shim s))%pp.
    unfold seq at 1. destruct (include_shim s e t) as [t'|d t'] eqn:Hrun; [|done].
    rewrite IH. by eapply include_shim_again.
Qed.

(** ** Agreement of configurations *)

Lemma include_shim_agree (s : shim) (e1 e2 : env) (t : tu) :
  has_include_supported e1 = has_include_supported e2 ->
  (forall h, h ∈ headers_of s -> available e1 h = available e2 h) ->
  include_shim s e1 t = include_shim s e2 t.
Proof.
  intros Hsup Hav.
  destruct (is_defined e1 t (guard s)) eqn:Hd.
  - rewrite (include_shim_guarded s e1 t Hd).
    rewrite is_defined_guard in Hd. rewrite <- (is_defined_guard s e2) in Hd.
    by rewrite (include_shim_guarded s e2 t Hd).
  - pose proof (guard_undefined_inv s e1 t Hd) as Hg.
    destruct s; cbn [include_shim headers_of probed dependencies app] in *.
    + rewrite !JavaScriptCore_run by done. rewrite !found_spec, Hsup.
      by rewrite !Hav by set_solver.
    + rewrite !WPEWebKit_run by done. unfold WPE_probe_state.
      rewrite !found_spec, Hsup. by rewrite !Hav by set_solver.
    + rewrite !WebKitGTK_run by done. rewrite !found_spec, Hsup.
      by rewrite !Hav by set_solver.
Qed.

(** No header name is shared between two of the three headers. *)
Lemma headers_disjoint (s s' : shim) (h : string) :
  s' ≠ s -> h ∈ headers_of s -> h ∈ headers_of s' -> False.
Proof.
  intros Hne H1 H2.
  apply list_elem_of_In in H1, H2.
  destruct s, s'; try done; simpl in H1, H2;
    intuition (subst; discriminate).
Qed.

Lemma fresh_not_yet_included (s : shim) : not_yet_included s fresh.
Proof. by split. Qed.

Lemma gtk_among_others_differs (h : string) :
  available webkit2_and_gtk h <> available gtk_among_others h ->
  exists s', s' <> WebKitGTK /\ h ∈ headers_of s'.
Proof.
  intros Hdiff.
  destruct (decide (h = "wpe/webkit.h")) as [->|Hw].
  { exists WPEWebKit. split; [done|]. cbn. set_solver. }
  destruct (decide (h = "jsc/jsc.h")) as [->|Hj].
  { exists JavaScriptCore. split; [done|]. cbn. set_solver. }
  exfalso. apply Hdiff. cbn. unfold path.
  apply bool_decide_ext. rewrite !elem_of_cons. intuition congruence.
Qed.

(** * The claims *)

(** C3 (independence of the three headers).  Take two build configurations
    with the same compiler that agree on the header(s) probed by one shim
    and whose search paths differ only on headers named by the other two
    shims.  Including the shim gives its capability macro the same value
    in both; in fact the whole outcome of the inclusion is the same. *)
Theorem shims_independent (s : shim) (e1 e2 : env) (t : tu) :
  has_include_supported e1 = has_include_supported e2 ->
  (forall h, h ∈ probed s -> available e1 h = available e2 h) ->
  (forall h, available e1 h <> available e2 h ->
             exists s', s' <> s /\ h ∈ headers_of s') ->
  macro_value (capability s) (state_of (include_shim s e1 t))
  = macro_value (capability s) (state_of (include_shim s e2 t))
  /\ include_shim s e1 t = include_shim s e2 t.
Proof.
  intros Hsup _ Hdiff.
  assert (include_shim s e1 t = include_shim s e2 t) as Heq.
  { apply include_shim_agree; [done|]. intros h Hh.
    destruct (decide (available e1 h = available e2 h)) as [|Hne]; [done|].
    destruct (Hdiff h Hne) as (s' & Hs' & Hh').
    destruct (headers_disjoint s s' h Hs' Hh Hh'). }
  by rewrite Heq.
Qed.

Lemma shims_independent_witness :
  has_include_supported webkit2_and_gtk = has_include_supported gtk_among_others
  /\ (forall h, h ∈ probed WebKitGTK ->
                available webkit2_and_gtk h = available gtk_among_others h)
  /\ available webkit2_and_gtk "wpe/webkit.h"
     <> available gtk_among_others "wpe/webkit.h"
  /\ macro_value (capability WebKitGTK)
       (state_of (include_shim WebKitGTK webkit2_and_gtk fresh))
     = macro_value (capability WebKitGTK)
         (state_of (include_shim WebKitGTK gtk_among_others fresh)).
Proof.
  assert (forall h, h ∈ probed WebKitGTK ->
            available webkit2_and_gtk h = available gtk_among_others h) as Hp.
  { intros h Hh. apply list_elem_of_singleton in Hh as ->. reflexivity. }
  split; [reflexivity|]. split; [exact Hp|]. split; [discriminate|].
  exact (proj1 (shims_independent WebKitGTK webkit2_and_gtk gtk_among_others
                  fresh eq_refl Hp gtk_among_others_differs)).
Defined.

(** C4 (idempotence).  In every build configuration and from every state
    of the translation unit, including a shim twice, or any larger number
    of times, leaves the translation unit exactly as one inclusion does:
    same outcome, same macro table, same headers brought in, and the same
    diagnostics, so no redefinition is reported. *)
Theorem include_shim_idempotent (s : shim) (e : env) (t : tu) (n : nat) :
  times (S (S n)) (include_shim s) e t = include_shim s e t
  /\ (include_shim s ;; include_shim s)%pp e t = include_shim s e t
  /\ macros (state_of (times (S (S n)) (include_shim s) e t))
     = macros (state_of (include_shim s e t))
  /\ included (state_of (times (S (S n)) (include_shim s) e t))
     = included (state_of (include_shim s e t))
  /\ diags (state_of (times (S (S n)) (include_shim s) e t))
     = diags (state_of (include_shim s e t)).
Proof.
  rewrite times_include_shim. repeat split.
  unfold seq. destruct (include_shim s e t) as [t'|d t'] eqn:Hrun; [|done].
  by eapply include_shim_again.
Qed.

(** C8 (no [__has_include]).  On a compiler that does not implement
    [__has_include], whatever headers are installed, a first inclusion of
    any of the three shims completes, defines the capability macro to 0
    and brings in no header. *)
Theorem without_has_include (s : shim) (e : env) (t : tu) :
  has_include_supported e = false ->
  macro_value (guard s) t = None ->
  exists t', include_shim s e t = Ok t'
    /\ macro_value (capability s) t' = Some (Int 0)
    /\ included t' = included t.
Proof.
  intros Hsup Hg.
  assert (forall h, found e h = false) as Hnf.
  { intros h. by rewrite found_spec, Hsup. }
  destruct s; cbn [include_shim capability].
  - rewrite JavaScriptCore_run, !Hnf by done. eexists; split; [done|].
    unfold after_guard. by macro_simpl.
  - rewrite WPEWebKit_run by done. unfold WPE_probe_state.
    rewrite !Hnf. eexists; split; [done|].
    unfold after_guard. by macro_simpl.
  - rewrite WebKitGTK_run, !Hnf by done. eexists; split; [done|].
    unfold after_guard. by macro_simpl.
Qed.

Lemma without_has_include_witness :
  has_include_supported old_compiler = false
  /\ macro_value (guard WPEWebKit) fresh = None
  /\ exists t', include_shim WPEWebKit old_compiler fresh = Ok t'
       /\ macro_value (capability WPEWebKit) t' = Some (Int 0)
       /\ included t' = included fresh.
Proof.
  split; [reflexivity|]. split; [reflexivity|].
  apply (without_has_include WPEWebKit old_compiler fresh); reflexivity.
Defined.

(** C9 (preference order in JavaScriptCore.h).  On first inclusion the
    shim completes and, with "available" read as "located by the
    [__has_include] probe" (on the search path of a compiler that
    implements the operator): if <JavaScriptCore/JavaScript.h> is available
    it is the one header brought in, also when <jsc/jsc.h> is available
    too; <jsc/jsc.h> is brought in exactly when it is available and
    <JavaScriptCore/JavaScript.h> is not; CWEBKIT_HAS_JAVASCRIPTCORE is 1
    exactly when at least one of the two is available. *)
Theorem JavaScriptCore_preference (e : env) (t : tu) :
  macro_value (guard JavaScriptCore) t = None ->
  exists t', JavaScriptCore_h e t = Ok t'
    /\ (found e "JavaScriptCore/JavaScript.h" = true ->
        included t' = included t ++ ["JavaScriptCore/JavaScript.h"])
    /\ (included t' = included t ++ ["jsc/jsc.h"] <->
        found e "JavaScriptCore/JavaScript.h" = false /\ found e "jsc/jsc.h" = true)
    /\ (found e "JavaScriptCore/JavaScript.h" = false ->
        found e "jsc/jsc.h" = false -> included t' = included t)
    /\ (macro_value "CWEBKIT_HAS_JAVASCRIPTCORE" t' = Some (Int 1) <->
        found e "JavaScriptCore/JavaScript.h" = true \/ found e "jsc/jsc.h" = true)
    /\ (forall h, found e h = has_include_supported e && available e h).
Proof.
  intros Hg. rewrite JavaScriptCore_run by done. eexists; split; [done|].
  unfold after_guard.
  destruct (found e "JavaScriptCore/JavaScript.h") eqn:Ha,
           (found e "jsc/jsc.h") eqn:Hb;
    macro_simpl; repeat split; try done; try apply found_spec;
    try (intuition congruence); by absurd_app.
Qed.

Lemma JavaScriptCore_preference_witness :
  macro_value (guard JavaScriptCore) fresh = None
  /\ exists t', JavaScriptCore_h both_jsc fresh = Ok t'
    /\ (found both_jsc "JavaScriptCore/JavaScript.h" = true ->
        included t' = included fresh ++ ["JavaScriptCore/JavaScript.h"])
    /\ (included t' = included fresh ++ ["jsc/jsc.h"] <->
        found both_jsc "JavaScriptCore/JavaScript.h" = false
        /\ found both_jsc "jsc/jsc.h" = true)
    /\ (found both_jsc "JavaScriptCore/JavaScript.h" = false ->
        found both_jsc "jsc/jsc.h" = false -> included t' = included fresh)
    /\ (macro_value "CWEBKIT_HAS_JAVASCRIPTCORE" t' = Some (Int 1) <->
        found both_jsc "JavaScriptCore/JavaScript.h" = true
        \/ found both_jsc "jsc/jsc.h" = true)
    /\ (forall h, found both_jsc h
                  = has_include_supported both_jsc && available both_jsc h).
Proof.
  split; [reflexivity|].
  apply (JavaScriptCore_preference both_jsc fresh). reflexivity.
Defined.

(** ** The capability macro after a first inclusion *)

Lemma target_found_JavaScriptCore (e : env) :
  target_found e JavaScriptCore
  = found e "JavaScriptCore/JavaScript.h" || found e "jsc/jsc.h".
Proof. unfold target_found. cbn. by rewrite orb_false_r. Qed.

Lemma target_found_WPEWebKit (e : env) :
  target_found e WPEWebKit = found e "wpe/webkit.h".
Proof. unfold target_found. cbn. by rewrite orb_false_r. Qed.

Lemma target_found_WebKitGTK (e : env) :
  target_found e WebKitGTK = found e "webkit2/webkit2.h".
Proof. unfold target_found. cbn. by rewrite orb_false_r. Qed.

Lemma capability_after (s : shim) (e : env) (t : tu) :
  not_yet_included s t ->
  macro_value (capability s) (state_of (include_shim s e t)) =
  if target_found e s
  then match s with
       | WebKitGTK => if available e "gtk/gtk.h" then Some (Int 1) else None
       | _ => Some (Int 1)
       end
  else Some (Int 0).
Proof.
  intros [Hg Hc]. destruct s; cbn [include_shim capability guard] in *.
  - rewrite JavaScriptCore_run, target_found_JavaScriptCore by done.
    destruct (found e "JavaScriptCore/JavaScript.h"); [|destruct (found e "jsc/jsc.h")];
      cbn [orb state_of]; by macro_simpl.
  - rewrite WPEWebKit_run, target_found_WPEWebKit by done. unfold WPE_probe_state.
    destruct (found e "glib.h"); [destruct (available e "gio/gio.h")|];
      cbn [state_of]; destruct (found e "wpe/webkit.h"); by macro_simpl.
  - rewrite WebKitGTK_run, target_found_WebKitGTK by done. unfold after_guard.
    destruct (found e "webkit2/webkit2.h"); [destruct (available e "gtk/gtk.h")|];
      cbn [state_of guard]; by macro_simpl.
Qed.

Lemma capability_one_inv (s : shim) (e : env) (t : tu) :
  not_yet_included s t ->
  macro_value (capability s) (state_of (include_shim s e t)) = Some (Int 1) ->
  target_found e s = true /\ (s = WebKitGTK -> available e "gtk/gtk.h" = true).
Proof.
  intros Hn. rewrite capability_after by done.
  destruct (target_found e s), s; try destruct (available e "gtk/gtk.h");
    intuition congruence.
Qed.

(** The failing run of WebKitGTK.h: <webkit2/webkit2.h> is on the search
    path, <gtk/gtk.h> is not.  Line 30 stops the translation before line
    31 defines the macro. *)
Example WebKitGTK_only_webkit2 :
  include_shim WebKitGTK only_webkit2 fresh
  = Fatal (FileNotFound "gtk/gtk.h")
      (add_header "webkit2/webkit2.h" (after_guard WebKitGTK fresh)).
Proof. reflexivity. Qed.

(** C1, as stated, fails for WebKitGTK.h: with <webkit2/webkit2.h> found
    and <gtk/gtk.h> missing, the header was found and CWEBKIT_HAS_GTK is
    not 1. *)
Lemma only_webkit2_found_but_not_one :
  ~ (macro_value (capability WebKitGTK)
       (state_of (include_shim WebKitGTK only_webkit2 fresh)) = Some (Int 1)
     <-> target_found only_webkit2 WebKitGTK = true).
Proof. intros [_ H]. specialize (H eq_refl). vm_compute in H. discriminate H. Qed.

(** C1, amended.  After a first inclusion,
    CWEBKIT_HAS_JAVASCRIPTCORE is 1 iff <JavaScriptCore/JavaScript.h> or
    <jsc/jsc.h> is found by the probe, CWEBKIT_HAS_WPE is 1 iff
    <wpe/webkit.h> is found, and CWEBKIT_HAS_GTK is 1 iff
    <webkit2/webkit2.h> is found and <gtk/gtk.h>, which WebKitGTK.h
    includes without probing it, is on the search path. *)
Theorem capability_one_iff_found (s : shim) (e : env) (t : tu) :
  not_yet_included s t ->
  macro_value (capability s) (state_of (include_shim s e t)) = Some (Int 1)
  <-> target_found e s = true
      /\ (s = WebKitGTK -> available e "gtk/gtk.h" = true).
Proof.
  intros Hn. rewrite capability_after by done.
  destruct (target_found e s), s; try destruct (available e "gtk/gtk.h");
    split; try done; intuition congruence.
Qed.

Lemma capability_one_iff_found_witness :
  not_yet_included WebKitGTK fresh
  /\ (macro_value (capability WebKitGTK)
        (state_of (include_shim WebKitGTK webkit2_and_gtk fresh)) = Some (Int 1)
      <-> target_found webkit2_and_gtk WebKitGTK = true
          /\ (WebKitGTK = WebKitGTK -> available webkit2_and_gtk "gtk/gtk.h" = true)).
Proof.
  split; [split; reflexivity|].
  apply (capability_one_iff_found WebKitGTK webkit2_and_gtk fresh).
  split; reflexivity.
Defined.

(** C6, as stated, fails for WebKitGTK.h in the same configuration: the
    translation stops inside the header and CWEBKIT_HAS_GTK is neither 0
    nor 1, it is undefined. *)
Lemma only_webkit2_leaves_macro_undefined :
  ~ (exists z, (z = 0 \/ z = 1)
       /\ macro_value (capability WebKitGTK)
            (state_of (include_shim WebKitGTK only_webkit2 fresh)) = Some (Int z)).
Proof. intros (z & _ & H). vm_compute in H. discriminate H. Qed.

(** C6, amended.  After a first inclusion the capability macro is never
    defined to anything but the integer constant 0 or 1, and it is
    defined in every configuration of headers and compiler but one: when
    <webkit2/webkit2.h> is found and <gtk/gtk.h> is not on the search
    path, WebKitGTK.h stops at its [#include <gtk/gtk.h>] and leaves
    CWEBKIT_HAS_GTK undefined. *)
Theorem capability_zero_or_one (s : shim) (e : env) (t : tu) :
  not_yet_included s t ->
  (macro_value (capability s) (state_of (include_shim s e t)) = Some (Int 0)
   \/ macro_value (capability s) (state_of (include_shim s e t)) = Some (Int 1)
   \/ macro_value (capability s) (state_of (include_shim s e t)) = None)
  /\ (macro_value (capability s) (state_of (include_shim s e t)) = None
      <-> s = WebKitGTK /\ found e "webkit2/webkit2.h" = true
          /\ available e "gtk/gtk.h" = false)
  /\ (macro_value (capability s) (state_of (include_shim s e t)) = None
      -> include_shim s e t
         = Fatal (FileNotFound "gtk/gtk.h")
             (add_header "webkit2/webkit2.h" (after_guard s t))).
Proof.
  intros Hn. rewrite capability_after by done.
  destruct s.
  - destruct (target_found e JavaScriptCore); intuition congruence.
  - destruct (target_found e WPEWebKit); intuition congruence.
  - rewrite target_found_WebKitGTK. cbn [include_shim].
    rewrite WebKitGTK_run by apply Hn.
    destruct (found e "webkit2/webkit2.h"), (available e "gtk/gtk.h");
      intuition congruence.
Qed.

Lemma capability_zero_or_one_witness :
  not_yet_included WPEWebKit fresh
  /\ (macro_value (capability WPEWebKit)
        (state_of (include_shim WPEWebKit only_wpe fresh)) = Some (Int 0)
      \/ macro_value (capability WPEWebKit)
           (state_of (include_shim WPEWebKit only_wpe fresh)) = Some (Int 1)
      \/ macro_value (capability WPEWebKit)
           (state_of (include_shim WPEWebKit only_wpe fresh)) = None).
Proof.
  split; [split; reflexivity|].
  apply (capability_zero_or_one WPEWebKit only_wpe fresh).
  split; reflexivity.
Defined.

(** ** Headers and diagnostics after a first inclusion *)

Lemma included_after (s : shim) (e : env) (t : tu) :
  macro_value (guard s) t = None ->
  included (state_of (include_shim s e t)) = included t ++ brought_in s e.
Proof.
  intros Hg. destruct s; cbn [include_shim brought_in].
  - rewrite JavaScriptCore_run by done. unfold after_guard.
    destruct (found e "JavaScriptCore/JavaScript.h"); [|destruct (found e "jsc/jsc.h")];
      cbn [state_of]; macro_simpl; by rewrite ?app_nil_r.
  - rewrite WPEWebKit_run by done. unfold WPE_probe_state, after_guard.
    destruct (found e "glib.h"); [destruct (available e "gio/gio.h")|];
      cbn [state_of]; destruct (found e "wpe/webkit.h");
      macro_simpl; by rewrite <- ?app_assoc, ?app_nil_r.
  - rewrite WebKitGTK_run by done. unfold after_guard.
    destruct (found e "webkit2/webkit2.h"); [destruct (available e "gtk/gtk.h")|];
      cbn [state_of]; macro_simpl; by rewrite <- ?app_assoc, ?app_nil_r.
Qed.

Ltac diags_simpl :=
  unfold after_guard;
  repeat first
    [ rewrite add_header_diags
    | rewrite set_macro_diags_new by (macro_simpl; done) ].

Lemma diags_after (s : shim) (e : env) (t : tu) :
  not_yet_included s t ->
  diags (state_of (include_shim s e t)) = diags t.
Proof.
  intros [Hg Hc]. destruct s; cbn [include_shim capability guard] in *.
  - rewrite JavaScriptCore_run by done.
    destruct (found e "JavaScriptCore/JavaScript.h"); [|destruct (found e "jsc/jsc.h")];
      cbn [state_of guard]; by diags_simpl.
  - rewrite WPEWebKit_run by done. unfold WPE_probe_state.
    destruct (found e "glib.h"); [destruct (available e "gio/gio.h")|];
      cbn [state_of guard]; destruct (found e "wpe/webkit.h"); by diags_simpl.
  - rewrite WebKitGTK_run by done.
    destruct (found e "webkit2/webkit2.h"); [destruct (available e "gtk/gtk.h")|];
      cbn [state_of guard]; by diags_simpl.
Qed.

Lemma completed_after (s : shim) (e : env) (t : tu) :
  macro_value (guard s) t = None ->
  completed (include_shim s e t) =
  match s with
  | JavaScriptCore => true
  | WPEWebKit => negb (found e "glib.h") || available e "gio/gio.h"
  | WebKitGTK => negb (found e "webkit2/webkit2.h") || available e "gtk/gtk.h"
  end.
Proof.
  intros Hg. destruct s; cbn [include_shim].
  - by rewrite JavaScriptCore_run.
  - rewrite WPEWebKit_run by done.
    by destruct (found e "glib.h"), (available e "gio/gio.h").
  - rewrite WebKitGTK_run by done.
    by destruct (found e "webkit2/webkit2.h"), (available e "gtk/gtk.h").
Qed.

(** The only errors the three headers can raise themselves: the two
    [#include]s of a header they did not probe. *)
Lemma fatal_only_unprobed (s : shim) (e : env) (t t' : tu) (d : diagnostic) :
  include_shim s e t = Fatal d t' ->
  (s = WebKitGTK /\ d = FileNotFound "gtk/gtk.h")
  \/ (s = WPEWebKit /\ d = FileNotFound "gio/gio.h").
Proof.
  destruct (is_defined e t (guard s)) eqn:Hd.
  { by rewrite include_shim_guarded. }
  apply guard_undefined_inv in Hd.
  destruct s; cbn [include_shim].
  - by rewrite JavaScriptCore_run.
  - rewrite WPEWebKit_run by done.
    destruct (found e "glib.h"); [destruct (available e "gio/gio.h")|];
      try done. intros [= <- _]. by right.
  - rewrite WebKitGTK_run by done.
    destruct (found e "webkit2/webkit2.h"); [destruct (available e "gtk/gtk.h")|];
      try done. intros [= <- _]. by left.
Qed.

(** C2, as stated, fails for WPEWebKit.h: with only <wpe/webkit.h> on the
    search path CWEBKIT_HAS_WPE is 1, and neither <glib.h> nor
    <gio/gio.h> has been brought in. *)
Lemma only_wpe_one_without_glib :
  ~ (macro_value (capability WPEWebKit)
       (state_of (include_shim WPEWebKit only_wpe fresh)) = Some (Int 1) ->
     (exists h, h ∈ probed WPEWebKit
                /\ visible h (state_of (include_shim WPEWebKit only_wpe fresh)))
     /\ (forall h, h ∈ dependencies WPEWebKit ->
                   visible h (state_of (include_shim WPEWebKit only_wpe fresh)))).
Proof.
  intros H. destruct (H eq_refl) as [_ Hdeps].
  specialize (Hdeps "glib.h"). unfold visible in Hdeps.
  change (included (state_of (include_shim WPEWebKit only_wpe fresh)))
    with ["wpe/webkit.h"] in Hdeps.
  assert ("glib.h" ∈ dependencies WPEWebKit) as Hin by (cbn; left).
  apply Hdeps, list_elem_of_singleton in Hin. discriminate Hin.
Qed.

(** C2, amended.  Whenever a first inclusion leaves the capability macro
    defined to 1, the native header that the probe found is visible; for
    WebKitGTK.h so is <gtk/gtk.h>; for WPEWebKit.h, <glib.h> is visible
    when the header's separate probe of <glib.h> succeeds, and
    <gio/gio.h> when in addition it is on the search path.  (With
    <glib.h> not found, CWEBKIT_HAS_WPE = 1 comes without the GLib
    headers.) *)
Theorem visible_when_one (s : shim) (e : env) (t : tu) :
  not_yet_included s t ->
  macro_value (capability s) (state_of (include_shim s e t)) = Some (Int 1) ->
  (exists h, h ∈ probed s /\ found e h = true
             /\ visible h (state_of (include_shim s e t)))
  /\ match s with
     | JavaScriptCore => True
     | WebKitGTK => visible "gtk/gtk.h" (state_of (include_shim s e t))
     | WPEWebKit =>
         found e "glib.h" = true ->
         visible "glib.h" (state_of (include_shim s e t))
         /\ (available e "gio/gio.h" = true ->
             visible "gio/gio.h" (state_of (include_shim s e t)))
     end.
Proof.
  intros Hn Hone. pose proof Hn as [Hg _].
  apply capability_one_inv in Hone as [Hfound Hgtk]; [|done].
  unfold visible. rewrite included_after by done.
  destruct s; cbn [brought_in probed].
  - rewrite target_found_JavaScriptCore in Hfound. split; [|done].
    destruct (found e "JavaScriptCore/JavaScript.h") eqn:Ha.
    + exists "JavaScriptCore/JavaScript.h". set_solver.
    + destruct (found e "jsc/jsc.h") eqn:Hb; [|done].
      exists "jsc/jsc.h". set_solver.
  - rewrite target_found_WPEWebKit in Hfound. rewrite Hfound. split.
    + exists "wpe/webkit.h". set_solver.
    + intros ->. split; [set_solver|]. intros ->. set_solver.
  - rewrite target_found_WebKitGTK in Hfound. rewrite Hfound, Hgtk by done. split.
    + exists "webkit2/webkit2.h". set_solver.
    + set_solver.
Qed.

Lemma visible_when_one_witness :
  not_yet_included WPEWebKit fresh
  /\ macro_value (capability WPEWebKit)
       (state_of (include_shim WPEWebKit wpe_and_glib fresh)) = Some (Int 1)
  /\ (exists h, h ∈ probed WPEWebKit /\ found wpe_and_glib h = true
             /\ visible h (state_of (include_shim WPEWebKit wpe_and_glib fresh)))
  /\ (found wpe_and_glib "glib.h" = true ->
      visible "glib.h" (state_of (include_shim WPEWebKit wpe_and_glib fresh))
      /\ (available wpe_and_glib "gio/gio.h" = true ->
          visible "gio/gio.h" (state_of (include_shim WPEWebKit wpe_and_glib fresh)))).
Proof.
  split; [split; reflexivity|]. split; [reflexivity|].
  apply (visible_when_one WPEWebKit wpe_and_glib fresh);
    [split; reflexivity|reflexivity].
Defined.

(** C5, as stated, fails for WPEWebKit.h: with <wpe/webkit.h> absent,
    <glib.h> present and <gio/gio.h> absent, the header's own
    [#include <gio/gio.h>] (line 43) is a fatal error. *)
Lemma glib_without_gio_fails :
  ~ ((forall h, h ∈ probed WPEWebKit -> available glib_without_gio h = false) ->
     completed (include_shim WPEWebKit glib_without_gio fresh) = true
     /\ diags (state_of (include_shim WPEWebKit glib_without_gio fresh)) = []
     /\ macro_value (capability WPEWebKit)
          (state_of (include_shim WPEWebKit glib_without_gio fresh)) = Some (Int 0)).
Proof.
  intros H. destruct H as [Hc _]; [|discriminate Hc].
  intros h Hh. apply list_elem_of_singleton in Hh as ->. reflexivity.
Qed.

(** C5, amended.  In every configuration in which the probe does not find
    the target native header, a first inclusion defines the capability
    macro to 0 and reports no macro redefinition; JavaScriptCore.h and
    WebKitGTK.h then always complete without error, and WPEWebKit.h
    completes without error unless <glib.h> is found while <gio/gio.h>,
    included without a probe of its own, is not on the search path. *)
Theorem absent_target_degrades (s : shim) (e : env) (t : tu) :
  not_yet_included s t ->
  target_found e s = false ->
  macro_value (capability s) (state_of (include_shim s e t)) = Some (Int 0)
  /\ diags (state_of (include_shim s e t)) = diags t
  /\ (completed (include_shim s e t) = false
      <-> s = WPEWebKit /\ found e "glib.h" = true
          /\ available e "gio/gio.h" = false).
Proof.
  intros Hn Hnf. pose proof Hn as [Hg _].
  rewrite capability_after, Hnf, diags_after, completed_after by done.
  split; [done|]. split; [done|].
  destruct s.
  - intuition congruence.
  - destruct (found e "glib.h"), (available e "gio/gio.h"); cbn; intuition congruence.
  - rewrite target_found_WebKitGTK in Hnf. rewrite Hnf. cbn. intuition congruence.
Qed.

Lemma absent_target_degrades_witness :
  not_yet_included WPEWebKit fresh
  /\ target_found only_glib WPEWebKit = false
  /\ macro_value (capability WPEWebKit)
       (state_of (include_shim WPEWebKit only_glib fresh)) = Some (Int 0)
  /\ diags (state_of (include_shim WPEWebKit only_glib fresh)) = diags fresh.
Proof.
  split; [split; reflexivity|]. split; [reflexivity|].
  destruct (absent_target_degrades WPEWebKit only_glib fresh) as (Hv & Hd & _);
    [split; reflexivity|reflexivity|].
  exact (conj Hv Hd).
Defined.

(** C10, as stated, fails: with <glib.h> available and <gio/gio.h> not,
    including WPEWebKit.h does not make the declarations of <gio/gio.h>
    visible; the translation stops at line 43. *)
Lemma gio_missing_not_visible :
  ~ (available wpe_glib_without_gio "glib.h" = true ->
     visible "glib.h" (state_of (include_shim WPEWebKit wpe_glib_without_gio fresh))
     /\ visible "gio/gio.h"
          (state_of (include_shim WPEWebKit wpe_glib_without_gio fresh))).
Proof.
  intros H. destruct (H eq_refl) as [_ Hgio]. unfold visible in Hgio.
  change (included (state_of (include_shim WPEWebKit wpe_glib_without_gio fresh)))
    with ["wpe/webkit.h"; "glib.h"] in Hgio.
  apply list_elem_of_In in Hgio. cbn in Hgio. intuition discriminate.
Qed.

(** C10, amended.  In every configuration where the probe finds <glib.h>
    and <gio/gio.h> is on the search path, a first inclusion of
    WPEWebKit.h completes and makes <glib.h> and <gio/gio.h> visible,
    whether or not <wpe/webkit.h> was found: the two GLib headers are
    brought in also when CWEBKIT_HAS_WPE is 0. *)
Theorem glib_block_independent_of_wpe (e : env) (t : tu) :
  macro_value (guard WPEWebKit) t = None ->
  found e "glib.h" = true ->
  available e "gio/gio.h" = true ->
  exists t', WPEWebKit_h e t = Ok t'
    /\ visible "glib.h" t' /\ visible "gio/gio.h" t'
    /\ included t'
       = included t
         ++ (if found e "wpe/webkit.h" then ["wpe/webkit.h"] else [])
         ++ ["glib.h"; "gio/gio.h"]
    /\ (macro_value "CWEBKIT_HAS_WPE" t' = Some (Int 0)
        <-> found e "wpe/webkit.h" = false).
Proof.
  intros Hg Hglib Hgio.
  pose proof (included_after WPEWebKit e t Hg) as Hinc.
  cbn [include_shim brought_in] in Hinc.
  rewrite WPEWebKit_run, Hglib, Hgio in * by done. cbn [state_of] in Hinc.
  eexists; split; [done|]. unfold visible. rewrite Hinc.
  split; [set_solver|]. split; [set_solver|]. split; [done|].
  unfold WPE_probe_state, after_guard.
  destruct (found e "wpe/webkit.h"); macro_simpl; intuition congruence.
Qed.

Lemma glib_block_independent_of_wpe_witness :
  macro_value (guard WPEWebKit) fresh = None
  /\ found only_glib "glib.h" = true
  /\ available only_glib "gio/gio.h" = true
  /\ exists t', WPEWebKit_h only_glib fresh = Ok t'
    /\ visible "glib.h" t' /\ visible "gio/gio.h" t'
    /\ included t'
       = included fresh
         ++ (if found only_glib "wpe/webkit.h" then ["wpe/webkit.h"] else [])
         ++ ["glib.h"; "gio/gio.h"]
    /\ (macro_value "CWEBKIT_HAS_WPE" t' = Some (Int 0)
        <-> found only_glib "wpe/webkit.h" = false).
Proof.
  split; [reflexivity|]. split; [reflexivity|]. split; [reflexivity|].
  apply (glib_block_independent_of_wpe only_glib fresh); reflexivity.
Defined.

(** ** All outcomes of a first inclusion *)

Lemma observable_spec (s : shim) (e : env) :
  observable s e
  = (macro_value (capability s) (state_of (include_shim s e fresh)),
     brought_in s e).
Proof. unfold observable. by rewrite included_after. Qed.

Ltac pick_outcome :=
  rewrite !elem_of_cons;
  first [ by left | by right; left | by do 2 right; left | by do 3 right; left ].

Lemma observable_in_outcomes (s : shim) (e : env) :
  completed (include_shim s e fresh) = true ->
  observable s e ∈ outcomes_of s.
Proof.
  rewrite completed_after, observable_spec, capability_after
    by apply fresh_not_yet_included.
  destruct s; cbn [outcomes_of brought_in].
  - rewrite target_found_JavaScriptCore. intros _.
    destruct (found e "JavaScriptCore/JavaScript.h"), (found e "jsc/jsc.h");
      cbn [orb]; pick_outcome.
  - rewrite target_found_WPEWebKit.
    destruct (found e "wpe/webkit.h"), (found e "glib.h"),
      (available e "gio/gio.h"); cbn; intros Hc; try discriminate Hc;
      pick_outcome.
  - rewrite target_found_WebKitGTK.
    destruct (found e "webkit2/webkit2.h"), (available e "gtk/gtk.h");
      cbn; intros Hc; try discriminate Hc; pick_outcome.
Qed.

Lemma outcomes_attained (s : shim) (p : option body * list string) :
  p ∈ outcomes_of s ->
  exists e, completed (include_shim s e fresh) = true /\ observable s e = p.
Proof.
  intros Hp. apply list_elem_of_In in Hp.
  destruct s; cbn in Hp; destruct_or!; try done; subst p.
  - by exists only_JavaScript_h.
  - by exists only_jsc_h.
  - by exists no_headers.
  - by exists wpe_and_glib.
  - by exists only_wpe.
  - by exists only_glib.
  - by exists no_headers.
  - by exists webkit2_and_gtk.
  - by exists no_headers.
Qed.

Lemma capability_when_completed (s : shim) (e : env) :
  completed (include_shim s e fresh) = true ->
  fst (observable s e) = Some (Int (if target_found e s then 1 else 0)).
Proof.
  rewrite completed_after, observable_spec, capability_after
    by apply fresh_not_yet_included.
  cbn [fst]. destruct s; try by destruct (target_found e _).
  rewrite target_found_WebKitGTK.
  by destruct (found e "webkit2/webkit2.h"), (available e "gtk/gtk.h").
Qed.

(** C7, as stated, fails for JavaScriptCore.h on both counts: the pair
    (macro, headers brought in) is not confined to two values, and it is
    not decided by whether a target header was found.  The configurations
    with only <JavaScriptCore/JavaScript.h> and with only <jsc/jsc.h>
    both find a target header and bring in different headers; the
    configuration with neither gives a third outcome. *)
Lemma JavaScriptCore_three_outcomes :
  ~ (exists p q, forall e, observable JavaScriptCore e = p
                           \/ observable JavaScriptCore e = q)
  /\ ~ (forall e1 e2,
          target_found e1 JavaScriptCore = target_found e2 JavaScriptCore ->
          observable JavaScriptCore e1 = observable JavaScriptCore e2).
Proof.
  split.
  - intros (p & q & H).
    pose proof (H only_JavaScript_h) as H1.
    pose proof (H only_jsc_h) as H2.
    pose proof (H no_headers) as H3.
    vm_compute in H1, H2, H3.
    destruct H1 as [H1|H1], H2 as [H2|H2], H3 as [H3|H3]; congruence.
  - intros Hdet.
    specialize (Hdet only_JavaScript_h only_jsc_h eq_refl).
    discriminate Hdet.
Qed.

(** C7, amended.  Each shim is a deterministic compile-time conditional
    on the compiler's [__has_include] support and on the availability of
    the headers the shim names.  Over the configurations in which a first
    inclusion completes, the pair (capability macro, headers brought in)
    takes exactly three values for JavaScriptCore.h, exactly four for
    WPEWebKit.h and exactly two for WebKitGTK.h; the macro value alone is
    0 or 1 and decided solely by whether the target native header was
    found. *)
Theorem outcomes_enumerated (s : shim) :
  NoDup (outcomes_of s)
  /\ length (outcomes_of s)
     = match s with JavaScriptCore => 3 | WPEWebKit => 4 | WebKitGTK => 2 end%nat
  /\ (forall e, completed (include_shim s e fresh) = true ->
                observable s e ∈ outcomes_of s)
  /\ (forall p, p ∈ outcomes_of s ->
                exists e, completed (include_shim s e fresh) = true
                          /\ observable s e = p)
  /\ (forall e, completed (include_shim s e fresh) = true ->
                fst (observable s e)
                = Some (Int (if target_found e s then 1 else 0)))
  /\ (forall e1 e2,
        has_include_supported e1 = has_include_supported e2 ->
        (forall h, h ∈ headers_of s -> available e1 h = available e2 h) ->
        observable s e1 = observable s e2).
Proof.
  split; [|split; [by destruct s|]].
  { destruct s; cbn [outcomes_of]; repeat (apply NoDup_cons; split);
      try apply NoDup_nil_2;
      rewrite ?elem_of_cons, ?elem_of_nil; intuition discriminate. }
  split; [apply observable_in_outcomes|].
  split; [apply outcomes_attained|].
  split; [apply capability_when_completed|].
  intros e1 e2 Hsup Hav. unfold observable.
  by rewrite (include_shim_agree s e1 e2 fresh Hsup Hav).
Qed.

(** * Further properties of the three headers *)

(** ** The macro table and the diagnostics of [#define] *)

Lemma macros_set_macro (m : string) (b : body) (t : tu) :
  macros (set_macro m b t) = <[m := b]> (macros t).
Proof.
  unfold set_macro. destruct (macros t !! m) as [b'|] eqn:E; [|done].
  destruct (decide (b' = b)) as [->|]; [|done].
  symmetry. by apply insert_id.
Qed.

Lemma diags_set_macro (m : string) (b : body) (t : tu) :
  diags (set_macro m b t)
  = diags t ++ match macro_value m t with
               | Some b' => if decide (b' = b) then [] else [MacroRedefined m]
               | None => []
               end.
Proof.
  unfold set_macro, macro_value. destruct (macros t !! m) as [b'|]; cbn.
  - destruct (decide (b' = b)); cbn; by rewrite ?app_nil_r.
  - by rewrite app_nil_r.
Qed.

Lemma guard_not_capability (s s' : shim) : guard s <> capability s'.
Proof. by destruct s, s'. Qed.

Lemma guard_inj (s s' : shim) : guard s = guard s' -> s = s'.
Proof. by destruct s, s'. Qed.

Lemma capability_inj (s s' : shim) : capability s = capability s' -> s = s'.
Proof. by destruct s, s'. Qed.

(** ** What one inclusion leaves alone *)

Lemma other_macro_kept (s : shim) (e : env) (t : tu) (m : string) :
  guard s <> m -> capability s <> m ->
  macro_value m (state_of (include_shim s e t)) = macro_value m t.
Proof.
  intros Hg Hc. destruct (is_defined e t (guard s)) eqn:Hd.
  { by rewrite include_shim_guarded. }
  apply guard_undefined_inv in Hd.
  destruct s; cbn [include_shim guard capability] in *.
  - rewrite JavaScriptCore_run by done. unfold after_guard. cbn [guard].
    destruct (found e "JavaScriptCore/JavaScript.h"); [|destruct (found e "jsc/jsc.h")];
      cbn [state_of]; by macro_simpl.
  - rewrite WPEWebKit_run by done. unfold WPE_probe_state, after_guard. cbn [guard].
    destruct (found e "glib.h"); [destruct (available e "gio/gio.h")|];
      cbn [state_of]; destruct (found e "wpe/webkit.h"); by macro_simpl.
  - rewrite WebKitGTK_run by done. unfold after_guard. cbn [guard].
    destruct (found e "webkit2/webkit2.h"); [destruct (available e "gtk/gtk.h")|];
      cbn [state_of]; by macro_simpl.
Qed.

Lemma other_shim_kept (s s' : shim) (e : env) (t : tu) :
  s <> s' ->
  macro_value (guard s') (state_of (include_shim s e t)) = macro_value (guard s') t
  /\ macro_value (capability s') (state_of (include_shim s e t))
     = macro_value (capability s') t.
Proof.
  intros Hne. split; apply other_macro_kept.
  - intros H. by apply guard_inj in H.
  - intros H. symmetry in H. by apply guard_not_capability in H.
  - apply guard_not_capability.
  - intros H. by apply capability_inj in H.
Qed.



(** ** The whole effect of a first inclusion *)

Lemma found_true (e : env) (h : string) :
  found e h = true -> has_include_supported e = true /\ available e h = true.
Proof. rewrite found_spec. apply andb_true_iff. Qed.

Lemma macros_add_header (h : string) (t : tu) :
  macros (add_header h t) = macros t.
Proof. done. Qed.

Ltac macros_simpl :=
  repeat first [ rewrite macros_set_macro | rewrite macros_add_header ].

Lemma macros_after (s : shim) (e : env) (t : tu) :
  macro_value (guard s) t = None ->
  macros (state_of (include_shim s e t))
  = if defines_capability s e
    then <[capability s := probe_value s e]> (<[guard s := Empty]> (macros t))
    else <[guard s := Empty]> (macros t).
Proof.
  intros Hg. unfold probe_value.
  destruct s; cbn [include_shim defines_capability capability guard].
  - rewrite JavaScriptCore_run, target_found_JavaScriptCore by done.
    unfold after_guard.
    destruct (found e "JavaScriptCore/JavaScript.h"); [|destruct (found e "jsc/jsc.h")];
      cbn [state_of orb guard]; by macros_simpl.
  - rewrite WPEWebKit_run, target_found_WPEWebKit by done.
    unfold WPE_probe_state, after_guard.
    destruct (found e "glib.h"); [destruct (available e "gio/gio.h")|];
      cbn [state_of]; destruct (found e "wpe/webkit.h");
      cbn [guard]; by macros_simpl.
  - rewrite WebKitGTK_run, target_found_WebKitGTK by done. unfold after_guard.
    destruct (found e "webkit2/webkit2.h"); [destruct (available e "gtk/gtk.h")|];
      cbn [state_of negb orb guard];
      by macros_simpl.
Qed.

Lemma diags_after_any (s : shim) (e : env) (t : tu) :
  macro_value (guard s) t = None ->
  diags (state_of (include_shim s e t))
  = diags t
    ++ (if defines_capability s e
        then match macro_value (capability s) t with
             | Some b' =>
                 if decide (b' = probe_value s e) then []
                 else [MacroRedefined (capability s)]
             | None => []
             end
        else []).
Proof.
  intros Hg. unfold probe_value.
  assert (diags (after_guard s t) = diags t) as Hd0
    by (by apply set_macro_diags_new).
  assert (forall t1, macro_value (capability s) t1 = macro_value (capability s) t ->
            diags t1 = diags t ->
            forall b, diags (set_macro (capability s) b t1)
            = diags t ++ match macro_value (capability s) t with
                         | Some b' => if decide (b' = b) then []
                                      else [MacroRedefined (capability s)]
                         | None => []
                         end) as Hset.
  { intros t1 Hv Hd b. by rewrite diags_set_macro, Hv, Hd. }
  assert (macro_value (capability s) (after_guard s t)
          = macro_value (capability s) t) as Hv0.
  { unfold after_guard. apply set_macro_other, guard_not_capability. }
  destruct s; cbn [include_shim defines_capability capability] in *.
  - rewrite JavaScriptCore_run, target_found_JavaScriptCore by done.
    destruct (found e "JavaScriptCore/JavaScript.h"); [|destruct (found e "jsc/jsc.h")];
      cbn [state_of orb]; by apply Hset.
  - rewrite WPEWebKit_run, target_found_WPEWebKit by done. unfold WPE_probe_state.
    destruct (found e "glib.h"); [destruct (available e "gio/gio.h")|];
      cbn [state_of]; destruct (found e "wpe/webkit.h");
      rewrite ?add_header_diags; by apply Hset.
  - rewrite WebKitGTK_run, target_found_WebKitGTK by done.
    destruct (found e "webkit2/webkit2.h"); [destruct (available e "gtk/gtk.h")|];
      cbn [state_of negb orb]; rewrite ?add_header_diags, ?app_nil_r;
      first [ by apply Hset | done ].
Qed.

Lemma brought_in_spec (s : shim) (e : env) :
  NoDup (brought_in s e)
  /\ forall h, h ∈ brought_in s e ->
       h ∈ headers_of s /\ available e h = true
       /\ has_include_supported e = true.
Proof.
  destruct s; cbn [brought_in headers_of probed dependencies app].
  - destruct (found e "JavaScriptCore/JavaScript.h") eqn:Ha;
      [|destruct (found e "jsc/jsc.h") eqn:Hb].
    + apply found_true in Ha as [? ?]. split; [apply NoDup_singleton|].
      intros h Hh. apply list_elem_of_singleton in Hh as ->. set_solver.
    + apply found_true in Hb as [? ?]. split; [apply NoDup_singleton|].
      intros h Hh. apply list_elem_of_singleton in Hh as ->. set_solver.
    + split; [apply NoDup_nil_2|]. intros h Hh. by apply elem_of_nil in Hh.
  - destruct (found e "wpe/webkit.h") eqn:Hw, (found e "glib.h") eqn:Hg,
      (available e "gio/gio.h") eqn:Hgio;
      try apply found_true in Hw as [? ?]; try apply found_true in Hg as [? ?];
      cbn [app]; (split;
        [ repeat (apply NoDup_cons; split); try apply NoDup_nil_2;
          rewrite ?elem_of_cons, ?elem_of_nil; intuition discriminate
        | intros h Hh; apply list_elem_of_In in Hh; cbn in Hh;
          repeat (destruct Hh as [<-|Hh]; [set_solver|]); done ]).
  - destruct (found e "webkit2/webkit2.h") eqn:Hw, (available e "gtk/gtk.h") eqn:Hgtk;
      try apply found_true in Hw as [? ?];
      (split;
        [ repeat (apply NoDup_cons; split); try apply NoDup_nil_2;
          rewrite ?elem_of_cons, ?elem_of_nil; intuition discriminate
        | intros h Hh; apply list_elem_of_In in Hh; cbn in Hh;
          repeat (destruct Hh as [<-|Hh]; [set_solver|]); done ]).
Qed.

(** X2 (headers brought in).  In any configuration and from any state,
    including one of the three headers only appends to the headers
    already brought in, and what it appends are headers named in that
    one shim, each at most once, each resolved by the search path, and
    only on a compiler that implements [__has_include]; nothing is
    appended when the include guard was already defined. *)
Theorem headers_only_own_and_present (s : shim) (e : env) (t : tu) :
  exists l,
    included (state_of (include_shim s e t)) = included t ++ l
    /\ NoDup l
    /\ (forall h, h ∈ l ->
          h ∈ headers_of s /\ available e h = true
          /\ has_include_supported e = true)
    /\ (is_Some (macro_value (guard s) t) -> l = []).
Proof.
  destruct (is_defined e t (guard s)) eqn:Hd.
  - exists []. rewrite include_shim_guarded by done. cbn [state_of].
    rewrite app_nil_r. split; [done|]. split; [apply NoDup_nil_2|].
    split; [|done]. intros h Hh. by apply elem_of_nil in Hh.
  - apply guard_undefined_inv in Hd. exists (brought_in s e).
    split; [by apply included_after|].
    destruct (brought_in_spec s e) as [Hnd Hin].
    split; [done|]. split; [done|].
    rewrite Hd. by intros [? ?].
Qed.

(** X3 (the only ways to fail).  An inclusion stops with an error exactly
    when the include guard is not yet defined, the compiler implements
    [__has_include], and either (WebKitGTK.h) <webkit2/webkit2.h> is on
    the search path and <gtk/gtk.h> is not, or (WPEWebKit.h) <glib.h> is
    on the search path and <gio/gio.h> is not.  The error is always
    "file not found" for that unprobed dependency header: the headers
    never fail on a header they probed, never use [__has_include] where it
    is not implemented, and JavaScriptCore.h never fails at all. *)
Theorem failure_characterised (s : shim) (e : env) (t : tu) :
  (completed (include_shim s e t) = false
   <-> macro_value (guard s) t = None
       /\ has_include_supported e = true
       /\ ((s = WebKitGTK /\ available e "webkit2/webkit2.h" = true
            /\ available e "gtk/gtk.h" = false)
           \/ (s = WPEWebKit /\ available e "glib.h" = true
               /\ available e "gio/gio.h" = false)))
  /\ (forall d t', include_shim s e t = Fatal d t' ->
        exists h, d = FileNotFound h /\ h ∈ dependencies s
                  /\ available e h = false)
  /\ completed (include_shim JavaScriptCore e t) = true.
Proof.
  split; [|split].
  - destruct (is_defined e t (guard s)) eqn:Hd.
    + rewrite include_shim_guarded by done. cbn [completed].
      split; [done|]. intros [Hg _]. by rewrite (guard_undefined s e t Hg) in Hd.
    + apply guard_undefined_inv in Hd. rewrite completed_after by done.
      rewrite !found_spec.
      destruct s, (has_include_supported e);
        try destruct (available e "glib.h");
        try destruct (available e "gio/gio.h");
        try destruct (available e "webkit2/webkit2.h");
        try destruct (available e "gtk/gtk.h");
        cbn; intuition congruence.
  - intros d t' Hrun. destruct (is_defined e t (guard s)) eqn:Hd.
    { by rewrite include_shim_guarded in Hrun. }
    apply guard_undefined_inv in Hd.
    destruct s; cbn [include_shim dependencies] in *.
    + by rewrite JavaScriptCore_run in Hrun.
    + rewrite WPEWebKit_run in Hrun by done.
      destruct (found e "glib.h"); [destruct (available e "gio/gio.h") eqn:Hgio|];
        try done. injection Hrun as <- _.
      exists "gio/gio.h". set_solver.
    + rewrite WebKitGTK_run in Hrun by done.
      destruct (found e "webkit2/webkit2.h");
        [destruct (available e "gtk/gtk.h") eqn:Hgtk|]; try done.
      injection Hrun as <- _. exists "gtk/gtk.h". set_solver.
  - destruct (is_defined e t (guard JavaScriptCore)) eqn:Hd.
    + by rewrite include_shim_guarded.
    + apply guard_undefined_inv in Hd. by rewrite completed_after.
Qed.

Lemma completed_defines (s : shim) (e : env) (t : tu) :
  macro_value (guard s) t = None ->
  completed (include_shim s e t) = true -> defines_capability s e = true.
Proof.
  intros Hg. rewrite completed_after by done. by destruct s.
Qed.

(** X4 (an earlier definition is overridden).  The headers define their
    capability macro without testing whether it is defined already.  So
    when a first inclusion completes, the macro has the value decided by
    the probe whatever it was before (say from [-DCWEBKIT_HAS_WPE=1]),
    and a redefinition is diagnosed exactly when the macro was defined
    before with a different replacement. *)
Theorem capability_overrides_predefinition (s : shim) (e : env) (t t' : tu) :
  macro_value (guard s) t = None ->
  include_shim s e t = Ok t' ->
  macro_value (capability s) t' = Some (probe_value s e)
  /\ diags t'
     = diags t ++ match macro_value (capability s) t with
                  | Some b' =>
                      if decide (b' = probe_value s e) then []
                      else [MacroRedefined (capability s)]
                  | None => []
                  end.
Proof.
  intros Hg Hrun.
  assert (defines_capability s e = true) as Hdef.
  { apply (completed_defines s e t Hg). by rewrite Hrun. }
  pose proof (macros_after s e t Hg) as Hm.
  pose proof (diags_after_any s e t Hg) as Hd.
  rewrite Hrun, Hdef in Hm, Hd. cbn [state_of] in Hm, Hd.
  split; [|done]. unfold macro_value. rewrite Hm. apply lookup_insert_eq.
Qed.

Lemma capability_overrides_predefinition_witness :
  macro_value (guard WPEWebKit) (predefined "CWEBKIT_HAS_WPE" (Int 1)) = None
  /\ include_shim WPEWebKit no_headers (predefined "CWEBKIT_HAS_WPE" (Int 1))
     = Ok (state_of (include_shim WPEWebKit no_headers
                       (predefined "CWEBKIT_HAS_WPE" (Int 1))))
  /\ macro_value (capability WPEWebKit)
       (state_of (include_shim WPEWebKit no_headers
                    (predefined "CWEBKIT_HAS_WPE" (Int 1))))
     = Some (Int 0)
  /\ diags (state_of (include_shim WPEWebKit no_headers
                        (predefined "CWEBKIT_HAS_WPE" (Int 1))))
     = [MacroRedefined "CWEBKIT_HAS_WPE"].
Proof.
  split; [reflexivity|]. split; [reflexivity|].
  exact (capability_overrides_predefinition WPEWebKit no_headers
           (predefined "CWEBKIT_HAS_WPE" (Int 1))
           (state_of (include_shim WPEWebKit no_headers
                        (predefined "CWEBKIT_HAS_WPE" (Int 1))))
           eq_refl eq_refl).
Defined.

(** ** Several headers in one translation unit *)

Lemma other_guard_defined (s s' : shim) (e : env) (t : tu) :
  is_defined e t (guard s) = true ->
  is_defined e (state_of (include_shim s' e t)) (guard s) = true.
Proof.
  intros Hd. destruct (decide (s' = s)) as [->|Hne].
  - by rewrite include_shim_guarded.
  - rewrite is_defined_guard in *.
    by rewrite (proj1 (other_shim_kept s' s e t Hne)).
Qed.

Lemma other_guard_undefined (s s' : shim) (e : env) (t : tu) :
  s' <> s ->
  macro_value (guard s) t = None ->
  macro_value (guard s) (state_of (include_shim s' e t)) = None.
Proof. intros Hne Hg. by rewrite (proj1 (other_shim_kept s' s e t Hne)). Qed.

Lemma guard_defined_after (s : shim) (e : env) (t t' : tu) :
  include_shim s e t = Ok t' -> is_defined e t' (guard s) = true.
Proof.
  intros Hrun. destruct (is_defined e t (guard s)) eqn:Hd.
  - rewrite include_shim_guarded in Hrun by done. by simplify_eq.
  - apply guard_undefined_inv in Hd.
    pose proof (guard_set_after s e t Hd) as Hset. rewrite Hrun in Hset.
    by eapply guard_defined.
Qed.

Lemma include_all_guard_defined (s : shim) (ss : list shim) (e : env) (t t' : tu) :
  is_defined e t (guard s) = true ->
  include_all ss e t = Ok t' -> is_defined e t' (guard s) = true.
Proof.
  revert t. induction ss as [|s' ss IH]; intros t Hd Hrun.
  - cbn in Hrun. unfold skip in Hrun. by simplify_eq.
  - cbn [include_all] in Hrun. unfold seq in Hrun.
    destruct (include_shim s' e t) as [t1|d t1] eqn:Hs'; [|done].
    apply (IH t1); [|done].
    pose proof (other_guard_defined s s' e t Hd) as H. by rewrite Hs' in H.
Qed.

Lemma include_all_app (ss1 ss2 : list shim) (e : env) (t : tu) :
  include_all (ss1 ++ ss2) e t = (include_all ss1 ;; include_all ss2)%pp e t.
Proof.
  revert t. induction ss1 as [|s ss1 IH]; intros t; [reflexivity|].
  cbn [app include_all]. unfold seq in *.
  destruct (include_shim s e t) as [t1|d t1]; [apply IH|done].
Qed.

(** X6 (a repeated [#include] can be dropped).  In a translation unit
    that includes the three headers in any order and any number of
    times, a second occurrence of a header has no effect at all, also
    when other headers are included in between: removing it leaves the
    outcome, error or not, unchanged. *)
Theorem repeated_include_dropped
    (s : shim) (ss1 ss2 ss3 : list shim) (e : env) (t : tu) :
  include_all (ss1 ++ s :: ss2 ++ s :: ss3) e t
  = include_all (ss1 ++ s :: ss2 ++ ss3) e t.
Proof.
  rewrite !include_all_app. unfold seq at 1 2.
  destruct (include_all ss1 e t) as [t0|d t0]; [|done].
  cbn [include_all]. unfold seq at 1 2.
  destruct (include_shim s e t0) as [t1|d t1] eqn:Hs; [|done].
  rewrite !include_all_app. unfold seq at 1 2.
  destruct (include_all ss2 e t1) as [t2|d t2] eqn:Hss2; [|done].
  cbn [include_all]. unfold seq at 1.
  rewrite include_shim_guarded; [done|].
  eapply include_all_guard_defined; [|done].
  by eapply guard_defined_after.
Qed.

(** X7 (more headers never lose a capability).  With the same compiler,
    if every header resolved by one search path is resolved by a second
    one, a capability macro that a first inclusion defines to 1 under the
    first path is also defined to 1 under the second. *)
Theorem more_headers_keep_capability (s : shim) (e1 e2 : env) (t : tu) :
  has_include_supported e1 = has_include_supported e2 ->
  path_included e1 e2 ->
  not_yet_included s t ->
  macro_value (capability s) (state_of (include_shim s e1 t)) = Some (Int 1) ->
  macro_value (capability s) (state_of (include_shim s e2 t)) = Some (Int 1).
Proof.
  intros Hsup Hinc Hn Hone.
  apply capability_one_inv in Hone as [Hfound Hgtk]; [|done].
  assert (forall h, found e1 h = true -> found e2 h = true) as Hmono.
  { intros h Hh. apply found_true in Hh as [H1 H2].
    rewrite found_spec, <- Hsup, H1. by apply Hinc. }
  rewrite capability_after by done.
  destruct s.
  - rewrite target_found_JavaScriptCore in *.
    apply orb_true_iff in Hfound as [H|H]; apply Hmono in H; rewrite H;
      [done|by rewrite orb_true_r].
  - rewrite target_found_WPEWebKit in *. by rewrite (Hmono _ Hfound).
  - rewrite target_found_WebKitGTK in *.
    by rewrite (Hmono _ Hfound), (Hinc _ (Hgtk eq_refl)).
Qed.

Lemma path_included_only_jsc_both :
  path_included only_jsc_h both_jsc.
Proof.
  intros h. cbn. unfold path. rewrite !bool_decide_eq_true.
  rewrite !elem_of_cons. intuition.
Qed.

Lemma more_headers_keep_capability_witness :
  has_include_supported only_jsc_h = has_include_supported both_jsc
  /\ not_yet_included JavaScriptCore fresh
  /\ macro_value (capability JavaScriptCore)
       (state_of (include_shim JavaScriptCore only_jsc_h fresh)) = Some (Int 1)
  /\ macro_value (capability JavaScriptCore)
       (state_of (include_shim JavaScriptCore both_jsc fresh)) = Some (Int 1).
Proof.
  split; [reflexivity|]. split; [split; reflexivity|]. split; [reflexivity|].
  apply (more_headers_keep_capability JavaScriptCore only_jsc_h both_jsc fresh);
    [reflexivity|exact path_included_only_jsc_both|split; reflexivity|reflexivity].
Defined.

Lemma include_shim_consistent (s : shim) (e : env) (t t' : tu) :
  consistent e t ->
  include_shim s e t = Ok t' ->
  consistent e t'
  /\ macro_value (capability s) t' = Some (probe_value s e).
Proof.
  intros Hcons Hrun.
  assert (forall s', s' <> s ->
            macro_value (guard s') t' = macro_value (guard s') t
            /\ macro_value (capability s') t' = macro_value (capability s') t)
    as Hother.
  { intros s' Hne. pose proof (other_shim_kept s s' e t) as H.
    rewrite Hrun in H. apply H. congruence. }
  assert (is_Some (macro_value (guard s) t')
          /\ macro_value (capability s) t' = Some (probe_value s e)) as Hs.
  { destruct (is_defined e t (guard s)) eqn:Hd.
    - rewrite include_shim_guarded in Hrun by done. simplify_eq.
      destruct (Hcons s) as [[Hg _]|H]; [|done].
      by rewrite (guard_undefined s e t' Hg) in Hd.
    - apply guard_undefined_inv in Hd. split.
      + pose proof (guard_set_after s e t Hd) as H. rewrite Hrun in H.
        cbn [state_of] in H. rewrite H. by eexists.
      + pose proof (macros_after s e t Hd) as Hm.
        rewrite (completed_defines s e t Hd) in Hm by (by rewrite Hrun).
        rewrite Hrun in Hm. cbn [state_of] in Hm.
        unfold macro_value. rewrite Hm. apply lookup_insert_eq. }
  split; [|apply Hs].
  intros s'. destruct (decide (s' = s)) as [->|Hne].
  - right. apply Hs.
  - destruct (Hother s' Hne) as [Hg Hc]. unfold not_yet_included.
    rewrite Hg, Hc. apply Hcons.
Qed.

(** X8 (the macro table stays truthful).  Start from a translation unit
    in which every one of the three headers is either not yet seen or
    has its guard defined and its capability macro equal to what its
    probe says.  After including any headers in any order, if no
    inclusion failed, the translation unit is again of that kind; each
    header in the list has its capability macro defined to 1 or 0
    according to its own probe, and the capability macro of a header
    that is not in the list is as it was. *)
Theorem include_all_consistent (ss : list shim) (e : env) (t t' : tu) :
  consistent e t ->
  include_all ss e t = Ok t' ->
  consistent e t'
  /\ (forall s, s ∈ ss ->
        macro_value (capability s) t'
        = Some (Int (if target_found e s then 1 else 0)))
  /\ (forall s, s ∉ ss ->
        macro_value (capability s) t' = macro_value (capability s) t).
Proof.
  revert t. induction ss as [|s0 ss IH]; intros t Hcons Hrun.
  - cbn in Hrun. unfold skip in Hrun. simplify_eq.
    split; [done|]. split; [|done]. intros s Hs. by apply elem_of_nil in Hs.
  - cbn [include_all] in Hrun. unfold seq in Hrun.
    destruct (include_shim s0 e t) as [t1|d t1] eqn:Hs0; [|done].
    destruct (include_shim_consistent s0 e t t1 Hcons Hs0) as [Hcons1 Hcap1].
    destruct (IH t1 Hcons1 Hrun) as (Hcons' & Hin & Hout).
    split; [done|]. split.
    + intros s Hs. apply elem_of_cons in Hs as [->|Hs]; [|by apply Hin].
      destruct (decide (s0 ∈ ss)) as [Hmem|Hmem]; [by apply Hin|].
      rewrite (Hout s0 Hmem). apply Hcap1.
    + intros s Hs. apply not_elem_of_cons in Hs as [Hne Hs].
      rewrite (Hout s Hs).
      pose proof (other_shim_kept s0 s e t) as H. rewrite Hs0 in H.
      apply H. congruence.
Qed.

Lemma fresh_consistent (e : env) : consistent e fresh.
Proof. intros s. left. apply fresh_not_yet_included. Qed.

Lemma include_all_consistent_witness :
  consistent wpe_and_glib fresh
  /\ include_all [WPEWebKit; JavaScriptCore; WPEWebKit] wpe_and_glib fresh
     = Ok (state_of (include_all [WPEWebKit; JavaScriptCore; WPEWebKit]
                       wpe_and_glib fresh))
  /\ consistent wpe_and_glib
       (state_of (include_all [WPEWebKit; JavaScriptCore; WPEWebKit]
                    wpe_and_glib fresh)).
Proof.
  split; [exact (fresh_consistent wpe_and_glib)|]. split; [reflexivity|].
  exact (proj1 (include_all_consistent [WPEWebKit; JavaScriptCore; WPEWebKit]
                  wpe_and_glib fresh _ (fresh_consistent wpe_and_glib) eq_refl)).
Defined.

(** ** The order of inclusion *)

Lemma capability_not_guard (s s' : shim) : capability s <> guard s'.
Proof. by destruct s, s'. Qed.

Lemma inserts_commute (s1 s2 : shim) (b1 b2 : body) (m : gmap string body) :
  s1 <> s2 ->
  <[capability s2 := b2]> (<[guard s2 := Empty]>
     (<[capability s1 := b1]> (<[guard s1 := Empty]> m)))
  = <[capability s1 := b1]> (<[guard s1 := Empty]>
      (<[capability s2 := b2]> (<[guard s2 := Empty]> m))).
Proof.
  intros Hne.
  assert (guard s1 <> guard s2) by (intros Heq; by apply guard_inj in Heq).
  assert (capability s1 <> capability s2)
    by (intros Heq; by apply capability_inj in Heq).
  pose proof (guard_not_capability s1 s2).
  pose proof (guard_not_capability s2 s1).
  pose proof (capability_not_guard s1 s2).
  pose proof (capability_not_guard s2 s1).
  rewrite (insert_insert_ne _ (guard s2) (capability s1)) by done.
  rewrite (insert_insert_ne _ (guard s2) (guard s1)) by done.
  rewrite (insert_insert_ne _ (capability s2) (capability s1)) by done.
  rewrite (insert_insert_ne _ (capability s2) (guard s1)) by done.
  done.
Qed.

Lemma two_first_inclusions (s1 s2 : shim) (e : env) (t t1 t12 : tu) :
  s1 <> s2 ->
  macro_value (guard s1) t = None ->
  macro_value (guard s2) t = None ->
  include_shim s1 e t = Ok t1 ->
  include_shim s2 e t1 = Ok t12 ->
  macros t12
  = <[capability s2 := probe_value s2 e]> (<[guard s2 := Empty]>
      (<[capability s1 := probe_value s1 e]> (<[guard s1 := Empty]> (macros t))))
  /\ included t12 = included t ++ brought_in s1 e ++ brought_in s2 e
  /\ exists d1 d2,
       diags t1 = diags t ++ d1
       /\ diags t12 = diags t ++ d1 ++ d2
       /\ diags (state_of (include_shim s2 e t)) = diags t ++ d2.
Proof.
  intros Hne Hg1 Hg2 H1 H12.
  assert (macro_value (guard s2) t1 = None) as Hg2'.
  { pose proof (other_guard_undefined s2 s1 e t Hne Hg2) as H. by rewrite H1 in H. }
  assert (macro_value (capability s2) t1 = macro_value (capability s2) t) as Hc2.
  { pose proof (proj2 (other_shim_kept s1 s2 e t Hne)) as H. by rewrite H1 in H. }
  pose proof (macros_after s1 e t Hg1) as Hm1.
  pose proof (macros_after s2 e t1 Hg2') as Hm2.
  pose proof (included_after s1 e t Hg1) as Hi1.
  pose proof (included_after s2 e t1 Hg2') as Hi2.
  pose proof (diags_after_any s1 e t Hg1) as Hd1.
  pose proof (diags_after_any s2 e t1 Hg2') as Hd2.
  pose proof (diags_after_any s2 e t Hg2) as Hd2t.
  rewrite (completed_defines s1 e t Hg1) in Hm1, Hd1 by (by rewrite H1).
  rewrite (completed_defines s2 e t1 Hg2') in Hm2, Hd2, Hd2t by (by rewrite H12).
  rewrite H1 in Hm1, Hi1, Hd1. rewrite H12 in Hm2, Hi2, Hd2.
  cbn [state_of] in *.
  split; [by rewrite Hm2, Hm1|]. split; [by rewrite Hi2, Hi1, <- app_assoc|].
  eexists _, _. split; [exact Hd1|]. split; [|exact Hd2t].
  by rewrite Hd2, Hd1, Hc2, <- app_assoc.
Qed.

(** X5 (the order of two [#include]s does not matter).  For two different
    headers of the three, in any configuration and from any state,
    including them in one order completes exactly when including them in
    the other order does; and then both orders give the same macro table,
    the same headers brought in up to their order, and the same
    diagnostics up to their order. *)
Theorem include_order_irrelevant (s1 s2 : shim) (e : env) (t : tu) :
  s1 <> s2 ->
  completed ((include_shim s1 ;; include_shim s2)%pp e t)
  = completed ((include_shim s2 ;; include_shim s1)%pp e t)
  /\ (completed ((include_shim s1 ;; include_shim s2)%pp e t) = true ->
      macros (state_of ((include_shim s1 ;; include_shim s2)%pp e t))
      = macros (state_of ((include_shim s2 ;; include_shim s1)%pp e t))
      /\ included (state_of ((include_shim s1 ;; include_shim s2)%pp e t))
         ≡ₚ included (state_of ((include_shim s2 ;; include_shim s1)%pp e t))
      /\ diags (state_of ((include_shim s1 ;; include_shim s2)%pp e t))
         ≡ₚ diags (state_of ((include_shim s2 ;; include_shim s1)%pp e t))).
Proof.
  intros Hne.
  assert (forall a b, a <> b -> is_defined e t (guard a) = true ->
            (include_shim a ;; include_shim b)%pp e t = include_shim b e t
            /\ (include_shim b ;; include_shim a)%pp e t = include_shim b e t)
    as Hnoop.
  { intros a b Hab Hd. unfold seq. rewrite (include_shim_guarded a e t Hd).
    split; [done|].
    destruct (include_shim b e t) as [tb|d tb] eqn:Hb; [|done].
    apply include_shim_guarded.
    pose proof (other_guard_defined a b e t Hd) as H. by rewrite Hb in H. }
  destruct (is_defined e t (guard s1)) eqn:Hd1.
  { destruct (Hnoop s1 s2 Hne Hd1) as [-> ->]. done. }
  destruct (is_defined e t (guard s2)) eqn:Hd2.
  { destruct (Hnoop s2 s1 (not_eq_sym Hne) Hd2) as [-> ->]. done. }
  apply guard_undefined_inv in Hd1, Hd2.
  assert (forall a b t1, a <> b -> macro_value (guard b) t = None ->
            include_shim a e t = Ok t1 ->
            completed (include_shim b e t1) = completed (include_shim b e t))
    as Hcompl.
  { intros a b t1 Hab Hg Ha.
    rewrite !completed_after; [done|done|].
    pose proof (other_guard_undefined b a e t Hab Hg) as H. by rewrite Ha in H. }
  unfold seq.
  destruct (include_shim s1 e t) as [t1|d1 t1] eqn:H1;
    destruct (include_shim s2 e t) as [t2|d2 t2] eqn:H2.
  - pose proof (Hcompl s1 s2 t1 Hne Hd2 H1) as Hc12.
    pose proof (Hcompl s2 s1 t2 (not_eq_sym Hne) Hd1 H2) as Hc21.
    rewrite H1 in Hc21. rewrite H2 in Hc12. cbn [completed] in Hc12, Hc21.
    destruct (include_shim s2 e t1) as [t12|? ?] eqn:H12; [|done].
    destruct (include_shim s1 e t2) as [t21|? ?] eqn:H21; [|done].
    split; [done|]. intros _. cbn [state_of].
    destruct (two_first_inclusions s1 s2 e t t1 t12 Hne Hd1 Hd2 H1 H12)
      as (Hm & Hi & da & db & Hda & Hdab & Hdb).
    destruct (two_first_inclusions s2 s1 e t t2 t21 (not_eq_sym Hne) Hd2 Hd1 H2 H21)
      as (Hm' & Hi' & db' & da' & Hdb' & Hdba' & Hda').
    rewrite H1 in Hda'. rewrite H2 in Hdb. cbn [state_of] in Hda', Hdb.
    rewrite Hdb' in Hdb. apply app_inv_head in Hdb. subst db'.
    rewrite Hda in Hda'. apply app_inv_head in Hda'. subst da'.
    split; [rewrite Hm, Hm'; by apply inserts_commute|].
    split.
    + rewrite Hi, Hi'. apply Permutation_app_head, Permutation_app_comm.
    + rewrite Hdab, Hdba'. apply Permutation_app_head, Permutation_app_comm.
  - pose proof (Hcompl s1 s2 t1 Hne Hd2 H1) as Hc12.
    rewrite H2 in Hc12. cbn [completed] in Hc12.
    destruct (include_shim s2 e t1); [done|]. by split.
  - pose proof (Hcompl s2 s1 t2 (not_eq_sym Hne) Hd1 H2) as Hc21.
    rewrite H1 in Hc21. cbn [completed] in Hc21.
    destruct (include_shim s1 e t2); [done|]. by split.
  - by split.
Qed.

Lemma include_order_irrelevant_witness :
  WPEWebKit <> WebKitGTK
  /\ completed ((include_shim WPEWebKit ;; include_shim WebKitGTK)%pp
                  gtk_among_others fresh)
     = completed ((include_shim WebKitGTK ;; include_shim WPEWebKit)%pp
                    gtk_among_others fresh)
  /\ macros (state_of ((include_shim WPEWebKit ;; include_shim WebKitGTK)%pp
                         gtk_among_others fresh))
     = macros (state_of ((include_shim WebKitGTK ;; include_shim WPEWebKit)%pp
                           gtk_among_others fresh)).
Proof.
  split; [discriminate|].
  destruct (include_order_irrelevant WPEWebKit WebKitGTK gtk_among_others fresh)
    as [Hc Hrest]; [discriminate|].
  split; [exact Hc|]. exact (proj1 (Hrest eq_refl)).
Defined.
